(** * LEEF log parser: a shallow embedding of [leef_file.py] and its properties

    The development follows the source file top to bottom:
    - [Py]: the Python built-ins the parser calls ([str.strip], [str.split],
      [str.isspace], [str.join], exceptions), as total functions;
    - [LeefHeader]: the header object, its private [__parse] and its
      [__getitem__];
    - [LeefFile]: the per-line loop of [_parse];
    - the properties of the specification, one theorem per claim.

    A Python [str] is modelled as a [string] whose characters are the code
    points 0..255; a [dict] with [str] keys as a [gmap string _]; a raised
    exception as the [Raise] branch of the [result] monad. *)

From stdpp Require Import base option list gmap sets strings.
From Stdlib Require Import Ascii ZArith Lia.

Local Open Scope Z_scope.
#[local] Set Warnings "-clear-no-such-hyp".

(** ** Python built-ins *)

Module Py.

(** The exceptions that can leave the parser.  [WrongHeaderStructure] is the
    class defined by the source; its message is the constant
    ["Header structure is incorrect"] followed by [header_payload], so the
    exception is determined by that payload.  The first payload is the
    f-string [" Not equal number of header fields: header - {items}"], which
    interpolates the tuple [items] and nothing else; the second is the
    constant [" All header fields must be unique"]. *)
Inductive header_payload : Type :=
  | NotEqualNumberOfHeaderFields (items : list string)
  | AllHeaderFieldsMustBeUnique.

Inductive exn : Type :=
  | WrongHeaderStructure (header_payload : header_payload)
  | ValueError (message : string)
  | KeyError (key : string)
  | IndexError (message : string).

Inductive result (A : Type) : Type :=
  | Ok (a : A)
  | Raise (e : exn).
Arguments Ok {A} a.
Arguments Raise {A} e.

#[global] Instance result_ret : MRet result := λ A a, Ok a.
#[global] Instance result_bind : MBind result := λ A B f m,
  match m with
  | Ok a => f a
  | Raise e => Raise e
  end.

Definition is_Ok {A} (m : result A) : Prop := ∃ a, m = Ok a.
Definition is_Raise {A} (m : result A) : Prop := ∃ e, m = Raise e.

(** [c in chars] on a string used as a set of characters. *)
Fixpoint str_contains_char (chars : string) (c : ascii) : bool :=
  match chars with
  | EmptyString => false
  | String c' chars' => if decide (c = c') then true else str_contains_char chars' c
  end.

(** [s.lstrip(chars)], [s.rstrip(chars)] and [s.strip(chars)]: every leading
    (trailing) character that belongs to [chars] is removed. *)
Fixpoint str_lstrip (chars s : string) : string :=
  match s with
  | EmptyString => EmptyString
  | String c s' => if str_contains_char chars c then str_lstrip chars s' else s
  end.

Fixpoint str_rstrip (chars s : string) : string :=
  match s with
  | EmptyString => EmptyString
  | String c s' =>
      match str_rstrip chars s' with
      | EmptyString => if str_contains_char chars c then EmptyString else String c EmptyString
      | r => String c r
      end
  end.

Definition str_strip (chars s : string) : string :=
  str_rstrip chars (str_lstrip chars s).

(** [s.startswith(sep)]. *)
Fixpoint str_startswith (sep s : string) : bool :=
  match sep, s with
  | EmptyString, _ => true
  | String a sep', String b s' => if decide (a = b) then str_startswith sep' s' else false
  | String _ _, EmptyString => false
  end.

(** [s.split(sep, maxsplit)] for a non-empty [sep]: the string is scanned from
    the left, every occurrence of [sep] that does not overlap the previous
    one ends a segment, and at most [maxsplit] cuts are made when [maxsplit]
    is not negative.  [skip] counts the characters of a separator that has
    just been matched and is still to be passed over. *)
Fixpoint split_go (sep : string) (skip : nat) (maxsplit : Z) (s : string) : list string :=
  match s with
  | EmptyString => [EmptyString]
  | String c s' =>
      match skip with
      | S k => split_go sep k maxsplit s'
      | O =>
          if negb (maxsplit =? 0) && str_startswith sep s
          then EmptyString :: split_go sep (Nat.pred (String.length sep)) (maxsplit - 1) s'
          else match split_go sep O maxsplit s' with
               | [] => [String c EmptyString]
               | w :: ws => String c w :: ws
               end
      end
  end.

Definition str_split (sep : string) (maxsplit : Z) (s : string) : result (list string) :=
  match sep with
  | EmptyString => Raise (ValueError "empty separator")
  | _ => Ok (split_go sep O maxsplit s)
  end.

(** [sep.join(items)]. *)
Fixpoint str_join (sep : string) (items : list string) : string :=
  match items with
  | [] => EmptyString
  | [x] => x
  | x :: rest => x +:+ sep +:+ str_join sep rest
  end.

(** The white-space characters among the code points 0..255: TAB, LF, VT, FF,
    CR, the separators FS, GS, RS, US, the space, NEL and the no-break
    space. *)
Definition char_isspace (c : ascii) : bool :=
  match c with
  | "009" | "010" | "011" | "012" | "013"
  | "028" | "029" | "030" | "031" | " " | "133" | "160" => true
  | _ => false
  end%char.

Fixpoint str_forall (p : ascii → bool) (s : string) : bool :=
  match s with
  | EmptyString => true
  | String c s' => p c && str_forall p s'
  end.

(** [s.isspace()]: at least one character, and all of them white space. *)
Definition str_isspace (s : string) : bool :=
  match s with
  | EmptyString => false
  | _ => str_forall char_isspace s
  end.

(** Truth value of a [str]: the empty string is falsy. *)
Definition str_bool (s : string) : bool :=
  match s with
  | EmptyString => false
  | _ => true
  end.

(** [name, value = xs]: unpacking into exactly two targets. *)
Definition unpack2 (xs : list string) : result (string * string) :=
  match xs with
  | [a; b] => Ok (a, b)
  | [] => Raise (ValueError "not enough values to unpack (expected 2, got 0)")
  | [_] => Raise (ValueError "not enough values to unpack (expected 2, got 1)")
  | _ => Raise (ValueError "too many values to unpack (expected 2)")
  end.

(** [xs.pop(0)] together with the remaining list. *)
Definition list_pop0 (xs : list string) : result (string * list string) :=
  match xs with
  | [] => Raise (IndexError "pop from empty list")
  | x :: rest => Ok (x, rest)
  end.

End Py.

Import Py.

(** ** The header object *)

Module LeefHeader.

(** An instance: the two private attributes. *)
Record t : Type := mk {
  header_structure : list string;
  content : gmap string string
}.

(** The assignment loop [for idx, item in enumerate(items)], started at index
    [idx] with the dictionary [res]. *)
Fixpoint assign (structure : list string) (idx : nat) (items : list string)
    (res : gmap string string) : result (gmap string string) :=
  match items with
  | [] => Ok res
  | item :: items' =>
      match structure !! idx with
      | None => Raise (IndexError "tuple index out of range")
      | Some name => assign structure (S idx) items' (<[name := item]> res)
      end
  end.

(** The tuple [items] of [__parse]: the non-empty [|]-separated segments of
    the payload once the marker characters have been stripped. *)
Definition header_items (payload : string) : result (list string) :=
  let payload := str_strip "LEEF:" payload in
  segments ← str_split "|" (-1) payload;
  mret (filter (λ x, str_bool x = true) segments).

Definition __parse (structure : list string) (payload : string) : result (gmap string string) :=
  items ← header_items payload;
  if negb (length items =? length structure)%nat
  then Raise (WrongHeaderStructure (NotEqualNumberOfHeaderFields items))
  else if negb (size (list_to_set structure : gset string) =? length structure)%nat
  then Raise (WrongHeaderStructure AllHeaderFieldsMustBeUnique)
  else assign structure 0 items ∅.

(** The constructor; its third parameter [delimeter] is never read and is left
    out. *)
Definition __init__ (payload : string) (structure : list string) : result t :=
  content ← __parse structure payload;
  mret (mk structure content).

Definition __getitem__ (self : t) (key : string) : result string :=
  match content self !! key with
  | Some v => Ok v
  | None => Raise (KeyError key)
  end.

End LeefHeader.

(** ** Records and the file parser *)

Record Record : Type := mkRecord {
  header : LeefHeader.t;
  body : gmap string string
}.

Module LeefFile.

(** The inner loop [for field in record], started with the dictionary
    [body]. *)
Fixpoint parse_fields (fields : list string) (body : gmap string string)
    : result (gmap string string) :=
  match fields with
  | [] => Ok body
  | field :: fields' =>
      parts ← str_split "=" 1 field;
      '(name, value) ← unpack2 parts;
      parse_fields fields' (<[name := value]> body)
  end.

(** One iteration of the outer loop: the [Record] built from one line. *)
Definition parse_record (structure : list string) (delimeter : string) (record : string)
    : result Record :=
  record ← str_split delimeter (-1) record;
  '(header, record) ← list_pop0 record;
  header ← LeefHeader.__init__ header structure;
  body ← parse_fields record ∅;
  mret (mkRecord header body).

(** The outer loop [for record in records], started with the list
    [content]. *)
Fixpoint parse_records (structure : list string) (delimeter : string)
    (records : list string) (content : list Record) : result (list Record) :=
  match records with
  | [] => Ok content
  | record :: records' =>
      r ← parse_record structure delimeter record;
      parse_records structure delimeter records' (content ++ [r])
  end.

(** The lines kept by [filter(lambda x: not x.isspace() and x, records)]. *)
Definition retained (x : string) : bool := negb (str_isspace x) && str_bool x.

Definition lines (payload : string) : result (list string) :=
  records ← str_split (String "010" EmptyString) (-1) payload;
  mret (filter (λ x, retained x = true) records).

Definition _parse (structure : list string) (delimeter : string) (payload : string)
    : result (list Record) :=
  records ← lines payload;
  parse_records structure delimeter records [].

End LeefFile.

(** ** Derived definitions

    The pure functions below name intermediate values of the source (the
    tuple [items] of [__parse], the list [records] of [_parse], the pieces of
    one line) and the notions the specification uses to talk about them. *)

Definition tab : string := String "009" EmptyString.
Definition newline : string := String "010" EmptyString.

(** The schema of the commented example in [main]. *)
Definition LEEF_FILE_HEADER : list string :=
  ["Version"; "Vendor"; "Product"; "ProductVersion"; "rule"].

(** First and last character of a string. *)
Definition str_head (s : string) : option ascii :=
  match s with
  | EmptyString => None
  | String c _ => Some c
  end.

Fixpoint str_last (s : string) : option ascii :=
  match s with
  | EmptyString => None
  | String c EmptyString => Some c
  | String _ s' => str_last s'
  end.

(** Splitting on a one-character separator without a limit; [split_go]
    specialises to it. *)
Fixpoint split_char (d : ascii) (s : string) : list string :=
  match s with
  | EmptyString => [EmptyString]
  | String c s' =>
      if decide (d = c) then EmptyString :: split_char d s'
      else match split_char d s' with
           | [] => [String c EmptyString]
           | w :: ws => String c w :: ws
           end
  end.

(** The text before and after the first occurrence of a character. *)
Fixpoint str_before (d : ascii) (s : string) : string :=
  match s with
  | EmptyString => EmptyString
  | String c s' => if decide (d = c) then EmptyString else String c (str_before d s')
  end.

Fixpoint str_after (d : ascii) (s : string) : string :=
  match s with
  | EmptyString => EmptyString
  | String c s' => if decide (d = c) then s' else str_after d s'
  end.

(** The tuple [items] of [__parse]: what [header_items] returns. *)
Definition items_of (payload : string) : list string :=
  filter (λ x, str_bool x = true) (split_go "|" 0 (-1) (str_strip "LEEF:" payload)).

(** The list [records] of [_parse] after the filter: what [lines] returns. *)
Definition lines_of (payload : string) : list string :=
  filter (λ x, LeefFile.retained x = true) (split_go newline 0 (-1) payload).

(** The pieces of one line split on a non-empty delimiter: the text popped
    as the header and the fields left in the list. *)
Definition segments (delimeter line : string) : list string :=
  split_go delimeter 0 (-1) line.
Definition header_text (delimeter line : string) : string :=
  hd EmptyString (segments delimeter line).
Definition body_fields (delimeter line : string) : list string :=
  tl (segments delimeter line).

(** The exception raised by [name, value = field.split("=", 1)] on a field
    that has no [=]. *)
Definition unpack_error : exn :=
  ValueError "not enough values to unpack (expected 2, got 1)".

(** One step of the inner loop on a field that has an [=]. *)
Definition field_pair (field : string) : string * string :=
  (str_before "=" field, str_after "=" field).

Definition insert_field (body : gmap string string) (field : string) : gmap string string :=
  <[(field_pair field).1 := (field_pair field).2]> body.

(** The value of the last field whose key is [key]. *)
Definition last_value (key : string) (fields : list string) : option string :=
  snd <$> last (filter (λ p, p.1 = key) (field_pair <$> fields)).

(** "Neither empty nor whitespace-only", in the specification's words. *)
Definition whitespace_only (x : string) : Prop := str_forall char_isspace x = true.
Definition nonblank (x : string) : Prop := x ≠ EmptyString ∧ ¬ whitespace_only x.

#[local] Instance nonblank_dec x : Decision (nonblank x).
Proof. unfold nonblank, whitespace_only. apply _. Defined.

(** The four failures the specification names, as the source raises them. *)
Definition HeaderShapeMismatch (items : list string) : exn :=
  WrongHeaderStructure (NotEqualNumberOfHeaderFields items).
Definition DuplicateSchemaField : exn :=
  WrongHeaderStructure AllHeaderFieldsMustBeUnique.
Definition UnknownField (name : string) : exn := KeyError name.
Definition MalformedBodyField : exn := unpack_error.

(** A header built from values: the marker, then the values joined by [|]. *)
Definition build_header (values : list string) : string :=
  "LEEF:" +:+ str_join "|" values.

(** The scenario of the specification: one line, five header fields, two
    body fields. *)
Definition scenario_payload : string :=
  "LEEF:1.0|Vendor|Product|1.0|ruleA" +:+ tab +:+ "src=10.0.0.1"
  +:+ tab +:+ "dst=10.0.0.2" +:+ newline.

Definition scenario_record : Record :=
  mkRecord
    (LeefHeader.mk LEEF_FILE_HEADER
       (<["rule" := "ruleA"]> (<["ProductVersion" := "1.0"]> (<["Product" := "Product"]>
          (<["Vendor" := "Vendor"]> (<["Version" := "1.0"]> ∅))))))
    (<["dst" := "10.0.0.2"]> (<["src" := "10.0.0.1"]> ∅)).

(** ** The file object

    An instance of the class [LeefFile], its constructor and its two public
    methods.  The generator returned by [records] is modelled by its state:
    the instance it iterates over and the position reached in the tuple of
    Records. *)

Module LeefFileInstance.

Record t : Type := mk {
  __delimeter : string;
  __header_structure : list string;
  __records : list Record
}.

Definition __init__ (payload : string) (header_structure : list string)
    (delimeter : string) : result t :=
  records ← LeefFile._parse header_structure delimeter payload;
  mret (mk delimeter header_structure records).

Definition get_content (self : t) : list Record := __records self.

Record generator : Type := mkgen {
  gi_self : t;
  gi_index : nat
}.

Inductive next_result : Type :=
  | Yield (record : Record)
  | StopIteration.

(** [self.records()]: a fresh generator, positioned before the first
    Record. *)
Definition records (self : t) : generator := mkgen self 0.

(** [next(g)]: the loop [for record in self.__records: yield record] resumed
    once. *)
Definition __next__ (g : generator) : next_result * generator :=
  match __records (gi_self g) !! gi_index g with
  | Some record => (Yield record, mkgen (gi_self g) (S (gi_index g)))
  | None => (StopIteration, g)
  end.

(** Consuming a generator, as [list(g)] does, with at most [fuel] calls of
    [next]; the flag tells whether [StopIteration] was reached. *)
Fixpoint consume (fuel : nat) (g : generator) : list Record * bool :=
  match fuel with
  | O => ([], false)
  | S fuel' =>
      match __next__ g with
      | (Yield record, g') =>
          let '(rest, stopped) := consume fuel' g' in (record :: rest, stopped)
      | (StopIteration, _) => ([], true)
      end
  end.

End LeefFileInstance.

(** ** Definitions for the further properties *)

(** [s[k:]]. *)
Fixpoint str_drop (k : nat) (s : string) : string :=
  match k, s with
  | O, _ => s
  | S _, EmptyString => EmptyString
  | S k', String _ s' => str_drop k' s'
  end.

(** [sep in s]: the separator occurs somewhere in the string. *)
Fixpoint str_occurs (sep s : string) : bool :=
  str_startswith sep s ||
  match s with
  | EmptyString => false
  | String _ s' => str_occurs sep s'
  end.

(** A string made of characters of the marker [LEEF:] only. *)
Definition marker_only (s : string) : Prop :=
  str_forall (str_contains_char "LEEF:") s = true.

(** The header of the commented example in [main]: the values, each followed
    by a [|], after the marker. *)
Definition build_header_piped (values : list string) : string :=
  build_header values +:+ "|".

(** A body field [key=value], and a line built from a header text and body
    fields joined by the delimiter. *)
Definition build_field (pair : string * string) : string :=
  pair.1 +:+ "=" +:+ pair.2.

Definition build_line (delimeter header : string) (fields : list string) : string :=
  str_join delimeter (header :: fields).

(** The name of a body field: the text before its first [=]. *)
Definition field_name (field : string) : string := (field_pair field).1.

(** ** Lemmas on the built-ins *)

Section Strings.

Implicit Types (s t sep chars : string) (c d : ascii).

Lemma str_app_cons c s t : String c s +:+ t = String c (s +:+ t).
Proof. reflexivity. Qed.

Lemma str_app_empty_l s : EmptyString +:+ s = s.
Proof. reflexivity. Qed.

Lemma str_app_eq_empty s t : s +:+ t = EmptyString → s = EmptyString ∧ t = EmptyString.
Proof. destruct s; [done|]. by rewrite str_app_cons. Qed.

Lemma str_contains_char_app s t c :
  str_contains_char (s +:+ t) c = str_contains_char s c || str_contains_char t c.
Proof.
  induction s as [|c' s IH]; [done|].
  rewrite str_app_cons. simpl. by destruct (decide (c = c')).
Qed.

(** *** Stripping *)

Lemma str_lstrip_prefix chars s t :
  str_forall (str_contains_char chars) s = true →
  str_lstrip chars (s +:+ t) = str_lstrip chars t.
Proof.
  induction s as [|c s IH]; [done|].
  rewrite str_app_cons. simpl. intros [Hc Hs]%andb_true_iff.
  rewrite Hc. auto.
Qed.

Lemma str_lstrip_id chars s :
  (∀ c, str_head s = Some c → str_contains_char chars c = false) →
  str_lstrip chars s = s.
Proof.
  destruct s as [|c s]; [done|]. simpl. intros H. by rewrite (H c).
Qed.

Lemma str_rstrip_id chars s :
  (∀ c, str_last s = Some c → str_contains_char chars c = false) →
  str_rstrip chars s = s.
Proof.
  induction s as [|c s IH]; [done|]. intros H.
  change (str_rstrip chars (String c s)) with
    (match str_rstrip chars s with
     | EmptyString => if str_contains_char chars c then EmptyString else String c EmptyString
     | r => String c r
     end).
  destruct s as [|c' s].
  - simpl. by rewrite (H c).
  - rewrite IH by (intros c0 Hc0; apply H; exact Hc0). done.
Qed.

Lemma str_strip_marker chars s t :
  str_forall (str_contains_char chars) s = true →
  (∀ c, str_head t = Some c → str_contains_char chars c = false) →
  (∀ c, str_last t = Some c → str_contains_char chars c = false) →
  str_strip chars (s +:+ t) = t.
Proof.
  intros Hs Hh Hl. unfold str_strip.
  rewrite str_lstrip_prefix by done.
  rewrite str_lstrip_id by done. by apply str_rstrip_id.
Qed.

Lemma str_head_app s t :
  s ≠ EmptyString → str_head (s +:+ t) = str_head s.
Proof. by destruct s. Qed.

Lemma str_last_app s t :
  t ≠ EmptyString → str_last (s +:+ t) = str_last t.
Proof.
  intros Ht. induction s as [|c s IH]; [done|].
  rewrite str_app_cons. simpl. rewrite IH.
  destruct (s +:+ t) eqn:E; [|done].
  apply str_app_eq_empty in E as [_ ?]. done.
Qed.

(** *** Splitting *)

Lemma split_go_nonempty sep k m s : split_go sep k m s ≠ [].
Proof.
  revert k m. induction s as [|c s IH]; intros k m; [done|].
  simpl. destruct k as [|k]; [|apply IH].
  destruct (negb (m =? 0) && str_startswith sep (String c s)); [done|].
  by destruct (split_go sep 0 m s).
Qed.

(** Once the allowance of cuts is used up the rest is kept whole. *)
Lemma split_go_exhausted sep s : split_go sep 0 0 s = [s].
Proof.
  induction s as [|c s IH]; [done|].
  simpl. by rewrite IH.
Qed.

Lemma split_go_char d m s :
  m < 0 → split_go (String d EmptyString) 0 m s = split_char d s.
Proof.
  revert m. induction s as [|c s IH]; intros m Hm; [done|].
  simpl. replace (m =? 0) with false by (symmetry; apply Z.eqb_neq; lia).
  simpl. destruct (decide (d = c)) as [->|Hne].
  - by rewrite IH by lia.
  - by rewrite IH.
Qed.

Lemma split_char_nonempty d s : split_char d s ≠ [].
Proof.
  induction s as [|c s IH]; [done|]. simpl.
  destruct (decide (d = c)); [done|]. by destruct (split_char d s).
Qed.

Lemma split_char_free d s :
  str_contains_char s d = false → split_char d s = [s].
Proof.
  induction s as [|c s IH]; [done|]. simpl.
  destruct (decide (d = c)); [done|]. intros H. by rewrite IH.
Qed.

Lemma split_char_app d s t :
  split_char d (s +:+ String d t) = split_char d s ++ split_char d t.
Proof.
  induction s as [|c s IH].
  - rewrite str_app_empty_l. simpl. by rewrite decide_True.
  - rewrite str_app_cons. simpl. rewrite IH.
    destruct (decide (d = c)); [done|].
    pose proof (split_char_nonempty d s).
    by destruct (split_char d s).
Qed.

Lemma split_char_join d items :
  items ≠ [] →
  Forall (λ v, str_contains_char v d = false) items →
  split_char d (str_join (String d EmptyString) items) = items.
Proof.
  intros Hne Hall. induction Hall as [|v items Hv Hall IH]; [done|].
  destruct items as [|v' items].
  - simpl. by apply split_char_free.
  - change (str_join (String d EmptyString) (v :: v' :: items))
      with (v +:+ String d EmptyString +:+ str_join (String d EmptyString) (v' :: items)).
    rewrite str_app_cons, str_app_empty_l, split_char_app, IH by done.
    by rewrite split_char_free.
Qed.

Lemma split_go_once d s :
  split_go (String d EmptyString) 0 1 s =
    if str_contains_char s d then [str_before d s; str_after d s] else [s].
Proof.
  induction s as [|c s IH]; [done|].
  simpl. destruct (decide (d = c)) as [->|Hne].
  - destruct s; [done|]. by rewrite split_go_exhausted.
  - rewrite IH. by destruct (str_contains_char s d).
Qed.

Lemma str_before_app d s t :
  str_contains_char s d = false → str_before d (s +:+ String d t) = s.
Proof.
  induction s as [|c s IH]; simpl.
  - intros _. by rewrite decide_True.
  - destruct (decide (d = c)); [done|].
    intros H. by rewrite IH.
Qed.

Lemma str_after_app d s t :
  str_contains_char s d = false → str_after d (s +:+ String d t) = t.
Proof.
  induction s as [|c s IH]; simpl.
  - intros _. by rewrite decide_True.
  - destruct (decide (d = c)); [done|].
    intros H. by rewrite IH.
Qed.

End Strings.

(** ** Lemmas on lists *)

Section Lists.

Context {A : Type} (P : A → Prop) `{∀ x, Decision (P x)}.

Lemma filter_all (l : list A) : Forall P l → filter P l = l.
Proof.
  induction 1 as [|x l Hx Hl IH]; [done|].
  by rewrite filter_cons_True, IH.
Qed.

Lemma filter_none (l : list A) : Forall (λ x, ¬ P x) l → filter P l = [].
Proof.
  induction 1 as [|x l Hx Hl IH]; [done|].
  by rewrite filter_cons_False.
Qed.

End Lists.

(** ** Lemmas on the exception monad *)

Section Monad.

Context {A B : Type}.
Implicit Types (m : result A) (f : A → result B).

Lemma bind_Ok a f : (Ok a ≫= f) = f a.
Proof. reflexivity. Qed.

Lemma bind_Ok_inv m f b :
  (m ≫= f) = Ok b → ∃ a, m = Ok a ∧ f a = Ok b.
Proof. destruct m as [a|e]; [eauto|done]. Qed.

End Monad.

(** ** Lemmas on the header parser *)

Section Header.

Import LeefHeader.
Implicit Types (structure items : list string) (payload name : string).
Implicit Types (res : gmap string string).

Lemma header_items_Ok payload : header_items payload = Ok (items_of payload).
Proof. reflexivity. Qed.

Lemma items_of_char payload :
  items_of payload =
    filter (λ x, str_bool x = true) (split_char "|" (str_strip "LEEF:" payload)).
Proof. unfold items_of. by rewrite split_go_char. Qed.

Lemma size_list_to_set_le structure :
  (size (list_to_set structure : gset string) ≤ length structure)%nat.
Proof.
  induction structure as [|x l IH]; [done|].
  rewrite list_to_set_cons. simpl.
  pose proof (size_union_alt ({[x]} : gset string) (list_to_set l)) as Hu.
  rewrite size_singleton in Hu.
  assert (size (list_to_set l ∖ {[x]} : gset string) ≤ size (list_to_set l : gset string))%nat.
  { apply subseteq_size. set_solver. }
  lia.
Qed.

Lemma size_list_to_set_NoDup structure :
  size (list_to_set structure : gset string) = length structure ↔ NoDup structure.
Proof.
  split; [|apply size_list_to_set].
  induction structure as [|x l IH]; [constructor|].
  intros Hsz. pose proof (size_list_to_set_le l) as Hle.
  rewrite list_to_set_cons in Hsz. simpl in Hsz.
  destruct (decide (x ∈ l)) as [Hin|Hnin].
  - assert (({[x]} ∪ list_to_set l : gset string) = list_to_set l) as Heq by set_solver.
    rewrite Heq in Hsz. lia.
  - constructor; [done|]. apply IH.
    rewrite size_union in Hsz by set_solver.
    rewrite size_singleton in Hsz. lia.
Qed.

Lemma assign_spec structure items : ∀ idx res,
  (idx + length items ≤ length structure)%nat →
  ∃ res', assign structure idx items res = Ok res'
    ∧ dom res' = dom res ∪ list_to_set (take (length items) (drop idx structure))
    ∧ (∀ name, name ∉ take (length items) (drop idx structure) → res' !! name = res !! name)
    ∧ (NoDup structure → ∀ j name,
         structure !! (idx + j)%nat = Some name → (j < length items)%nat →
         res' !! name = items !! j).
Proof.
  induction items as [|item items IH]; intros idx res Hlen.
  - exists res. simpl. split; [done|]. split; [set_solver|].
    split; [done|]. intros _ j name _ Hj. lia.
  - simpl in Hlen.
    destruct (lookup_lt_is_Some_2 structure idx) as [name0 Hname0]; [lia|].
    destruct (IH (S idx) (<[name0 := item]> res)) as (res' & Hres' & Hdom & Hout & Hin); [lia|].
    exists res'. simpl. rewrite Hname0.
    rewrite (drop_S _ _ _ Hname0). simpl.
    split; [done|]. split; [|split].
    + rewrite Hdom, dom_insert_L. set_solver.
    + intros name [Hne Hnin]%not_elem_of_cons.
      rewrite Hout by done. by rewrite lookup_insert_ne.
    + intros Hnd [|j] name Hj Hlt.
      * rewrite Nat.add_0_r in Hj. simplify_eq. simpl.
        rewrite Hout; [by rewrite lookup_insert_eq|].
        intros (k & Hk)%list_elem_of_lookup_1.
        apply lookup_take_Some in Hk as [Hk _].
        rewrite lookup_drop in Hk.
        pose proof (NoDup_lookup _ _ _ _ Hnd Hname0 Hk). lia.
      * simpl. apply Hin; [done| |lia].
        by replace (S idx + j)%nat with (idx + S j)%nat by lia.
Qed.

Lemma parse_shape structure payload :
  length (items_of payload) ≠ length structure →
  __parse structure payload =
    Raise (WrongHeaderStructure (NotEqualNumberOfHeaderFields (items_of payload))).
Proof.
  intros Hne. unfold __parse. rewrite header_items_Ok, bind_Ok.
  apply Nat.eqb_neq in Hne. by rewrite Hne.
Qed.

Lemma parse_unique structure payload :
  length (items_of payload) = length structure →
  ¬ NoDup structure →
  __parse structure payload = Raise (WrongHeaderStructure AllHeaderFieldsMustBeUnique).
Proof.
  intros Heq Hdup. unfold __parse. rewrite header_items_Ok, bind_Ok.
  apply Nat.eqb_eq in Heq. rewrite Heq. simpl.
  rewrite <- size_list_to_set_NoDup in Hdup.
  apply Nat.eqb_neq in Hdup. by rewrite Hdup.
Qed.

Lemma parse_Ok structure payload :
  length (items_of payload) = length structure →
  NoDup structure →
  ∃ res, __parse structure payload = Ok res
    ∧ dom res = list_to_set structure
    ∧ ∀ i name, structure !! i = Some name → res !! name = items_of payload !! i.
Proof.
  intros Heq Hnd.
  destruct (assign_spec structure (items_of payload) 0 ∅) as (res & Hres & Hdom & _ & Hin);
    [simpl; lia|].
  exists res. split; [|split].
  - unfold __parse. rewrite header_items_Ok, bind_Ok.
    rewrite (proj2 (Nat.eqb_eq _ _) Heq). simpl.
    apply size_list_to_set_NoDup in Hnd.
    by rewrite (proj2 (Nat.eqb_eq _ _) Hnd).
  - rewrite Hdom, dom_empty_L, drop_0, Heq, firstn_all. set_solver.
  - intros i name Hi. destruct (decide (i < length (items_of payload))%nat) as [Hlt|Hge].
    + by apply (Hin Hnd i name).
    + apply lookup_lt_Some in Hi. lia.
Qed.

Lemma parse_Ok_inv structure payload res :
  __parse structure payload = Ok res →
  length (items_of payload) = length structure ∧ NoDup structure.
Proof.
  intros Hres.
  destruct (decide (length (items_of payload) = length structure)) as [Heq|Hne].
  - split; [done|]. destruct (decide (NoDup structure)) as [|Hdup]; [done|].
    by rewrite parse_unique in Hres.
  - by rewrite parse_shape in Hres.
Qed.

End Header.

(** ** Lemmas on the file parser *)

Section File.

Import LeefHeader LeefFile.
Implicit Types (structure fields segs : list string) (delimeter line payload : string).
Implicit Types (body : gmap string string) (r : Record) (content : list Record).

Lemma field_split field :
  (str_split "=" 1 field ≫= unpack2) =
    if str_contains_char field "=" then Ok (field_pair field) else Raise unpack_error.
Proof.
  unfold str_split. rewrite bind_Ok, split_go_once.
  by destruct (str_contains_char field "=").
Qed.

Lemma parse_fields_cons field fields body :
  parse_fields (field :: fields) body =
    if str_contains_char field "="
    then parse_fields fields (insert_field body field)
    else Raise unpack_error.
Proof.
  change (parse_fields (field :: fields) body) with
    ((str_split "=" 1 field ≫= unpack2) ≫=
       λ '(name, value), parse_fields fields (<[name := value]> body)).
  rewrite field_split. by destruct (str_contains_char field "=").
Qed.

Lemma parse_fields_Ok fields : ∀ body,
  Forall (λ f, str_contains_char f "=" = true) fields →
  parse_fields fields body = Ok (foldl insert_field body fields).
Proof.
  induction fields as [|f fields IH]; intros body Hall; [done|].
  apply Forall_cons in Hall as [Hf Hall].
  rewrite parse_fields_cons, Hf. simpl. by apply IH.
Qed.

Lemma parse_fields_Raise fields : ∀ body,
  Exists (λ f, str_contains_char f "=" = false) fields →
  parse_fields fields body = Raise unpack_error.
Proof.
  induction fields as [|f fields IH]; intros body Hex.
  - by apply Exists_nil in Hex.
  - rewrite parse_fields_cons.
    destruct (str_contains_char f "=") eqn:Hf; [|done].
    apply Exists_cons in Hex as [Hex|Hex]; [congruence|]. by apply IH.
Qed.

Lemma parse_fields_Ok_inv fields body body' :
  parse_fields fields body = Ok body' →
  Forall (λ f, str_contains_char f "=" = true) fields
  ∧ body' = foldl insert_field body fields.
Proof.
  intros Hok.
  destruct (decide (Forall (λ f, str_contains_char f "=" = true) fields)) as [Hall|Hex].
  - split; [done|]. rewrite parse_fields_Ok in Hok by done. congruence.
  - apply not_Forall_Exists in Hex; [|apply _].
    rewrite parse_fields_Raise in Hok; [done|].
    eapply Exists_impl; [exact Hex|]. intros f Hf. simpl in Hf.
    by destruct (str_contains_char f "=").
Qed.

Lemma parse_record_unfold structure delimeter line :
  delimeter ≠ EmptyString →
  parse_record structure delimeter line =
    content ← __parse structure (header_text delimeter line);
    body ← parse_fields (body_fields delimeter line) ∅;
    mret (mkRecord (mk structure content) body).
Proof.
  intros Hd. unfold parse_record, header_text, body_fields, segments, str_split.
  destruct delimeter as [|d delimeter]; [done|].
  rewrite bind_Ok.
  pose proof (split_go_nonempty (String d delimeter) 0 (-1) line) as Hne.
  destruct (split_go (String d delimeter) 0 (-1) line) as [|h fields]; [done|].
  simpl. unfold __init__.
  by destruct (__parse structure h).
Qed.

Lemma parse_record_empty_delimeter structure line :
  parse_record structure EmptyString line = Raise (ValueError "empty separator").
Proof. reflexivity. Qed.

Lemma parse_record_Ok_inv structure delimeter line r :
  parse_record structure delimeter line = Ok r →
  delimeter ≠ EmptyString
  ∧ header_structure (header r) = structure
  ∧ __parse structure (header_text delimeter line) = Ok (content (header r))
  ∧ parse_fields (body_fields delimeter line) ∅ = Ok (body r).
Proof.
  intros Hok. destruct (decide (delimeter = EmptyString)) as [->|Hd]; [done|].
  rewrite parse_record_unfold in Hok by done.
  apply bind_Ok_inv in Hok as (c & Hc & Hok).
  apply bind_Ok_inv in Hok as (b & Hb & Hok).
  injection Hok as <-. by simpl.
Qed.

Lemma parse_records_Ok structure delimeter records : ∀ content out,
  parse_records structure delimeter records content = Ok out ↔
  ∃ rs, out = content ++ rs
    ∧ Forall2 (λ line r, parse_record structure delimeter line = Ok r) records rs.
Proof.
  induction records as [|line records IH]; intros content out; simpl.
  - split.
    + intros [= <-]. exists []. by rewrite app_nil_r.
    + intros (rs & -> & ->%Forall2_nil_inv_l). by rewrite app_nil_r.
  - split.
    + intros (r & Hr & Hrest)%bind_Ok_inv.
      apply IH in Hrest as (rs & -> & Hrs).
      exists (r :: rs). split; [by rewrite <- app_assoc|]. by constructor.
    + intros (rs & -> & Hrs).
      apply Forall2_cons_inv_l in Hrs as (r & rs' & Hr & Hrs & ->).
      rewrite Hr, bind_Ok. apply IH. exists rs'. split; [by rewrite <- app_assoc|done].
Qed.

Lemma parse_records_Raise structure delimeter pre line post e : ∀ content,
  Forall (λ l, is_Ok (parse_record structure delimeter l)) pre →
  parse_record structure delimeter line = Raise e →
  parse_records structure delimeter (pre ++ line :: post) content = Raise e.
Proof.
  induction pre as [|l pre IH]; intros content Hpre Hline; simpl.
  - by rewrite Hline.
  - apply Forall_cons in Hpre as [[r Hr] Hpre].
    rewrite Hr, bind_Ok. by apply IH.
Qed.

Lemma lines_Ok payload : lines payload = Ok (lines_of payload).
Proof. reflexivity. Qed.

Lemma lines_of_char payload :
  lines_of payload = filter (λ x, retained x = true) (split_char "010" payload).
Proof. unfold lines_of, newline. by rewrite split_go_char. Qed.

Lemma _parse_unfold structure delimeter payload :
  _parse structure delimeter payload =
    parse_records structure delimeter (lines_of payload) [].
Proof. unfold _parse. by rewrite lines_Ok. Qed.

Lemma _parse_Ok structure delimeter payload out :
  _parse structure delimeter payload = Ok out ↔
  Forall2 (λ line r, parse_record structure delimeter line = Ok r) (lines_of payload) out.
Proof.
  rewrite _parse_unfold, parse_records_Ok. split.
  - by intros (rs & -> & Hrs).
  - intros Hrs. by exists out.
Qed.

(** The Record at position [i] of a parsed file is the one built from the
    retained line at position [i]. *)
Lemma _parse_lookup structure delimeter payload out i line r :
  _parse structure delimeter payload = Ok out →
  lines_of payload !! i = Some line → out !! i = Some r →
  parse_record structure delimeter line = Ok r.
Proof.
  intros Hout Hline Hr. apply _parse_Ok in Hout.
  by apply (Forall2_lookup_lr _ _ _ _ _ _ Hout Hline Hr).
Qed.

Lemma _parse_line_fails structure delimeter payload line :
  line ∈ lines_of payload →
  is_Raise (parse_record structure delimeter line) →
  is_Raise (_parse structure delimeter payload).
Proof.
  intros [i Hi]%list_elem_of_lookup_1 [e He].
  destruct (_parse structure delimeter payload) as [out|e'] eqn:Hout; [|by exists e'].
  apply _parse_Ok in Hout.
  destruct (Forall2_lookup_l _ _ _ _ _ Hout Hi) as (r & _ & Hr). congruence.
Qed.

Lemma parse_record_malformed structure delimeter line :
  delimeter ≠ EmptyString →
  Exists (λ f, str_contains_char f "=" = false) (body_fields delimeter line) →
  is_Raise (parse_record structure delimeter line)
  ∧ (is_Ok (__parse structure (header_text delimeter line)) →
       parse_record structure delimeter line = Raise unpack_error).
Proof.
  intros Hd Hex. rewrite parse_record_unfold by done.
  rewrite (parse_fields_Raise _ _ Hex).
  destruct (__parse structure (header_text delimeter line)) as [res|e]; simpl.
  - split; [by eexists|done].
  - split; [by eexists|]. by intros [res ?].
Qed.

Lemma foldl_insert_field_lookup fields key : ∀ body,
  foldl insert_field body fields !! key =
    match last_value key fields with
    | Some v => Some v
    | None => body !! key
    end.
Proof.
  induction fields as [|f fields IH] using rev_ind; intros body; [done|].
  rewrite foldl_snoc. unfold last_value, insert_field.
  rewrite fmap_app, filter_app. simpl.
  destruct (decide ((field_pair f).1 = key)) as [Heq|Hne].
  - rewrite filter_cons_True by done. rewrite filter_nil, last_snoc. simpl.
    by rewrite <- Heq, lookup_insert_eq.
  - rewrite filter_cons_False by done. rewrite filter_nil, app_nil_r.
    rewrite lookup_insert_ne by done. apply IH.
Qed.

Lemma last_value_middle key rest pre post :
  str_contains_char key "=" = false →
  Forall (λ f, (field_pair f).1 ≠ key) post →
  last_value key (pre ++ (key +:+ "=" +:+ rest) :: post) = Some rest.
Proof.
  intros Hkey Hpost. unfold last_value.
  rewrite fmap_app, filter_app, fmap_cons.
  assert (field_pair (key +:+ "=" +:+ rest) = (key, rest)) as Hpair.
  { unfold field_pair.
    change (key +:+ "=" +:+ rest) with (key +:+ String "="%char rest).
    by rewrite str_before_app, str_after_app. }
  rewrite Hpair.
  rewrite filter_cons_True by done.
  rewrite (filter_none _ (field_pair <$> post)); [by rewrite last_snoc|].
  apply Forall_fmap. eapply Forall_impl; [exact Hpost|]. by intros f Hf.
Qed.

(** *** One-character delimiters *)

Lemma segments_char (d : ascii) line :
  segments (String d EmptyString) line = split_char d line.
Proof. unfold segments. by apply split_go_char. Qed.




End File.

(** ** Header round trip *)

Section RoundTrip.

Import LeefHeader.
Implicit Types (schema values : list string).

Lemma str_join_head values v :
  Forall (λ v, v ≠ EmptyString) values → head values = Some v →
  str_head (str_join "|" values) = str_head v.
Proof.
  destruct values as [|v0 [|v1 values]]; intros Hne [= <-]; [done|].
  apply Forall_cons in Hne as [Hv0 _].
  change (str_join "|" (v0 :: v1 :: values))
    with (v0 +:+ "|" +:+ str_join "|" (v1 :: values)).
  by apply str_head_app.
Qed.

Lemma str_join_last values : ∀ v,
  Forall (λ v, v ≠ EmptyString) values → last values = Some v →
  str_last (str_join "|" values) = str_last v.
Proof.
  induction values as [|v0 values IH]; intros v Hne Hlast; [done|].
  destruct values as [|v1 values]; [by injection Hlast as <-|].
  apply Forall_cons in Hne as [_ Hne].
  change (str_join "|" (v0 :: v1 :: values))
    with (v0 +:+ "|" +:+ str_join "|" (v1 :: values)).
  assert (str_join "|" (v1 :: values) ≠ EmptyString) as Hj.
  { apply Forall_cons in Hne as [Hv1 _].
    destruct values; [done|].
    change (str_join "|" (v1 :: s :: values))
      with (v1 +:+ "|" +:+ str_join "|" (s :: values)).
    by destruct v1. }
  rewrite str_last_app.
  - rewrite str_last_app by done. by apply IH.
  - intros [_ ?]%str_app_eq_empty. done.
Qed.

Lemma items_of_build_header values :
  Forall (λ v, v ≠ EmptyString ∧ str_contains_char v "|" = false) values →
  (∀ v c, head values = Some v → str_head v = Some c →
     str_contains_char "LEEF:" c = false) →
  (∀ v c, last values = Some v → str_last v = Some c →
     str_contains_char "LEEF:" c = false) →
  items_of (build_header values) = values.
Proof.
  intros Hall Hhead Hlast. rewrite items_of_char. unfold build_header.
  assert (Forall (λ v, v ≠ EmptyString) values) as Hne
    by (eapply Forall_impl; [exact Hall|]; by intros v [? _]).
  destruct values as [|v0 values]; [done|].
  rewrite str_strip_marker; [| done | |].
  - rewrite split_char_join; [| done |].
    + apply filter_all. eapply Forall_impl; [exact Hne|].
      intros v Hv. by destruct v.
    + eapply Forall_impl; [exact Hall|]. by intros v [_ ?].
  - intros c Hc. apply (Hhead v0 c); [done|].
    by rewrite <- (str_join_head (v0 :: values) v0).
  - intros c Hc. destruct (last (v0 :: values)) as [vl|] eqn:Hvl.
    + apply (Hlast vl c); [done|].
      by rewrite <- (str_join_last (v0 :: values) vl).
    + by apply last_None in Hvl.
Qed.

End RoundTrip.

(** ** Properties of the header parser *)

Section HeaderClaims.

Import LeefHeader LeefFile.
Implicit Types (schema structure values : list string).

(** C1, as stated, fails in three ways.
    [LeefHeader("LEEF:Linux", ["Vendor"])["Vendor"]] is ["inux"], because
    [strip("LEEF:")] also removes the leading [L] of the value; an empty
    value leaves an empty segment, which the filter drops; and a value that
    contains [|] is cut in two. *)
Lemma C1_roundtrip_fails :
  (let schema := ["Vendor"] in
   let values := ["Linux"] in
   NoDup schema ∧ Forall (λ name, name ≠ EmptyString) schema
   ∧ length values = length schema
   ∧ (h ← __init__ (build_header values) schema; __getitem__ h "Vendor") = Ok "inux")
  ∧ __init__ (build_header ["1.0"; EmptyString]) ["Version"; "Vendor"]
    = Raise (HeaderShapeMismatch ["1.0"])
  ∧ __init__ (build_header ["a|b"]) ["Vendor"]
    = Raise (HeaderShapeMismatch ["a"; "b"]).
Proof.
  split; [|split; by vm_compute].
  simpl. split; [|split; [|split]].
  - apply NoDup_singleton.
  - by repeat constructor.
  - done.
  - by vm_compute.
Qed.

(** C1, amended: for a schema of pairwise-distinct names and a list of values
    of the same length in which every value is non-empty and free of [|],
    the first value does not start with a character of [LEEF:] and the last
    value does not end with one, the header built from the values parses,
    against that schema, to a mapping that sends each schema name to its
    value. *)
Theorem C1_header_roundtrip schema values :
  NoDup schema →
  length values = length schema →
  Forall (λ v, v ≠ EmptyString ∧ str_contains_char v "|" = false) values →
  (∀ v c, head values = Some v → str_head v = Some c →
     str_contains_char "LEEF:" c = false) →
  (∀ v c, last values = Some v → str_last v = Some c →
     str_contains_char "LEEF:" c = false) →
  ∃ res, __parse schema (build_header values) = Ok res
    ∧ ∀ i name, schema !! i = Some name → res !! name = values !! i.
Proof.
  intros Hnd Hlen Hall Hhead Hlast.
  pose proof (items_of_build_header values Hall Hhead Hlast) as Hitems.
  destruct (parse_Ok schema (build_header values)) as (res & Hres & _ & Hlook);
    [by rewrite Hitems | done |].
  exists res. split; [done|]. intros i name Hi.
  rewrite <- Hitems. by apply Hlook.
Qed.

Lemma C1_header_roundtrip_witness :
  ∃ res, __parse ["Version"; "Vendor"] (build_header ["1.0"; "Incapsula"]) = Ok res
    ∧ ∀ i name, ["Version"; "Vendor"] !! i = Some name →
        res !! name = ["1.0"; "Incapsula"] !! i.
Proof.
  apply (C1_header_roundtrip ["Version"; "Vendor"] ["1.0"; "Incapsula"]).
  - apply NoDup_cons. split; [by intros ?%list_elem_of_singleton|apply NoDup_singleton].
  - reflexivity.
  - repeat constructor; done.
  - intros v c [= <-] [= <-]. reflexivity.
  - intros v c [= <-] [= <-]. reflexivity.
Defined.

(** C3, as stated, fails on its last part: the exception carries the
    segments only.  The same header raises the same exception against a
    schema of five names and against one of six, so no expected count can be
    read off the exception. *)
Lemma C3_expected_count_not_carried :
  let raw := "LEEF:1.0|Vendor|Product|1.0" in
  ¬ ∃ expected_count : exn → nat,
      ∀ schema e, NoDup schema → __parse schema raw = Raise e →
        expected_count e = length schema.
Proof.
  intros raw (expected_count & Hcount).
  assert (NoDup ["a"; "b"; "c"; "d"; "e"]) as Hnd5 by (apply (bool_decide_unpack _); by vm_compute).
  assert (NoDup ["a"; "b"; "c"; "d"; "e"; "f"]) as Hnd6 by (apply (bool_decide_unpack _); by vm_compute).
  pose proof (Hcount ["a"; "b"; "c"; "d"; "e"]
    (HeaderShapeMismatch ["1.0"; "Vendor"; "Product"; "1.0"]) Hnd5 eq_refl) as H5.
  pose proof (Hcount ["a"; "b"; "c"; "d"; "e"; "f"]
    (HeaderShapeMismatch ["1.0"; "Vendor"; "Product"; "1.0"]) Hnd6 eq_refl) as H6.
  simpl in H5, H6. congruence.
Qed.

(** C3, amended: whenever the number of non-empty [|]-separated segments
    left after stripping differs from the length of the schema, the header
    parser fails with [HeaderShapeMismatch] carrying those segments (and
    nothing else). *)
Theorem C3_header_shape_mismatch schema raw :
  length (items_of raw) ≠ length schema →
  header_items raw = Ok (items_of raw)
  ∧ __init__ raw schema = Raise (HeaderShapeMismatch (items_of raw)).
Proof.
  intros Hne. split; [apply header_items_Ok|].
  unfold __init__. by rewrite parse_shape.
Qed.

Lemma C3_header_shape_mismatch_witness :
  header_items "LEEF:1.0|Vendor|Product|1.0"
    = Ok (items_of "LEEF:1.0|Vendor|Product|1.0")
  ∧ __init__ "LEEF:1.0|Vendor|Product|1.0" LEEF_FILE_HEADER
    = Raise (HeaderShapeMismatch (items_of "LEEF:1.0|Vendor|Product|1.0")).
Proof.
  apply (C3_header_shape_mismatch LEEF_FILE_HEADER "LEEF:1.0|Vendor|Product|1.0").
  vm_compute. lia.
Defined.

(** C9: on a header object built against a schema, looking up the name at
    position [i] of the schema returns segment [i], and looking up a name
    that is not in the schema fails with [UnknownField]. *)
Theorem C9_header_lookup raw schema h :
  __init__ raw schema = Ok h →
  (∀ i name, schema !! i = Some name →
     ∃ v, items_of raw !! i = Some v ∧ __getitem__ h name = Ok v)
  ∧ (∀ name, name ∉ schema → __getitem__ h name = Raise (UnknownField name)).
Proof.
  intros Hinit. unfold __init__ in Hinit.
  apply bind_Ok_inv in Hinit as (res & Hres & [= <-]).
  destruct (parse_Ok_inv _ _ _ Hres) as [Hlen Hnd].
  destruct (parse_Ok schema raw Hlen Hnd) as (res' & Hres' & Hdom & Hlook).
  assert (res' = res) as -> by congruence.
  unfold __getitem__. simpl. split.
  - intros i name Hi.
    destruct (lookup_lt_is_Some_2 (items_of raw) i) as [v Hv].
    { rewrite Hlen. by eapply lookup_lt_Some. }
    exists v. split; [done|]. by rewrite (Hlook i name Hi), Hv.
  - intros name Hnin.
    assert (res !! name = None) as ->; [|done].
    apply not_elem_of_dom. rewrite Hdom. by rewrite elem_of_list_to_set.
Qed.

Lemma C9_header_lookup_witness :
  let h := mk ["Version"; "Vendor"]
              (<["Vendor" := "Incapsula"]> (<["Version" := "1.0"]> ∅)) in
  (∀ i name, ["Version"; "Vendor"] !! i = Some name →
     ∃ v, items_of "LEEF:1.0|Incapsula" !! i = Some v ∧ __getitem__ h name = Ok v)
  ∧ (∀ name, name ∉ ["Version"; "Vendor"] →
       __getitem__ h name = Raise (UnknownField name)).
Proof.
  apply (C9_header_lookup "LEEF:1.0|Incapsula" ["Version"; "Vendor"]).
  vm_compute. reflexivity.
Defined.

End HeaderClaims.

(** ** The scenario of the specification *)

Example scenario_parse :
  LeefFile._parse LEEF_FILE_HEADER tab scenario_payload = Ok [scenario_record].
Proof. vm_compute. reflexivity. Qed.

(** ** Properties of the file parser *)

Section FileClaims.

Import LeefHeader LeefFile.
Implicit Types (schema structure : list string) (delimeter payload line : string).
Implicit Types (out : list Record) (r : Record).

(** C2, as stated, fails: with the schema [["A"; "A"; "B"]] an empty payload
    parses to the empty tuple, and a line whose header has one segment fails
    with [HeaderShapeMismatch], the check that [__parse] makes first. *)
Lemma C2_duplicate_check_is_per_line :
  _parse ["A"; "A"; "B"] tab EmptyString = Ok []
  ∧ _parse ["A"; "A"; "B"] tab "LEEF:x" = Raise (HeaderShapeMismatch ["x"]).
Proof. split; by vm_compute. Qed.

(** C2, amended: with a schema that repeats a name (and a non-empty
    delimiter) no Record is ever produced.  A payload without retained lines
    parses to the empty ParsedFile; otherwise the parse fails at the header
    of the first retained line, with [DuplicateSchemaField] when that header
    has as many segments as the schema has names and with
    [HeaderShapeMismatch] when it has not. *)
Theorem C2_duplicate_schema schema delimeter payload :
  ¬ NoDup schema →
  delimeter ≠ EmptyString →
  _parse schema delimeter payload =
    match lines_of payload with
    | [] => Ok []
    | line :: _ =>
        let items := items_of (header_text delimeter line) in
        if decide (length items = length schema)
        then Raise DuplicateSchemaField
        else Raise (HeaderShapeMismatch items)
    end.
Proof.
  intros Hdup Hd. rewrite _parse_unfold.
  destruct (lines_of payload) as [|line rest]; [done|].
  simpl. rewrite parse_record_unfold by done.
  case_decide as Hlen.
  - by rewrite parse_unique.
  - by rewrite parse_shape.
Qed.

Lemma C2_duplicate_schema_witness :
  _parse ["A"; "A"; "B"] tab "LEEF:x|y|z" =
    match lines_of "LEEF:x|y|z" with
    | [] => Ok []
    | line :: _ =>
        let items := items_of (header_text tab line) in
        if decide (length items = length ["A"; "A"; "B"])
        then Raise DuplicateSchemaField
        else Raise (HeaderShapeMismatch items)
    end.
Proof.
  apply (C2_duplicate_schema ["A"; "A"; "B"] tab "LEEF:x|y|z").
  - intros Hnd. apply NoDup_cons in Hnd as [Hnin _]. apply Hnin. by left.
  - discriminate.
Defined.

Lemma retained_nonblank x : retained x = true ↔ nonblank x.
Proof.
  unfold retained, nonblank, whitespace_only.
  destruct x as [|c x]; [by split; [|intros [? _]]|].
  change (str_isspace (String c x)) with (str_forall char_isspace (String c x)).
  destruct (str_forall char_isspace (String c x)); simpl; split.
  - done.
  - by intros [_ ?].
  - intros _. split; [done|]. by intros ?.
  - done.
Qed.

Lemma lines_of_nonblank payload :
  lines_of payload = filter nonblank (split_go newline 0 (-1) payload).
Proof.
  unfold lines_of. apply list_filter_iff. intros x. apply retained_nonblank.
Qed.

(** C4: a successful parse returns exactly one Record per input line that is
    neither empty nor whitespace-only, the Record at each position being the
    one built from the line at that position; and a payload whose lines are
    all blank (the empty payload among them) parses to the empty
    ParsedFile. *)
Theorem C4_one_record_per_nonblank_line schema delimeter payload input_lines :
  str_split newline (-1) payload = Ok input_lines →
  let kept := filter nonblank input_lines in
  (∀ out, _parse schema delimeter payload = Ok out →
     length out = length kept
     ∧ Forall2 (λ line r, parse_record schema delimeter line = Ok r) kept out)
  ∧ (Forall (λ x, ¬ nonblank x) input_lines →
       _parse schema delimeter payload = Ok [])
  ∧ _parse schema delimeter EmptyString = Ok [].
Proof.
  intros [= <-] kept. subst kept. rewrite <- lines_of_nonblank. split; [|split].
  - intros out Hout. apply _parse_Ok in Hout. split; [|done].
    symmetry. by eapply Forall2_length.
  - intros Hblank. rewrite _parse_unfold, lines_of_nonblank.
    by rewrite filter_none.
  - reflexivity.
Qed.

Lemma C4_one_record_per_nonblank_line_witness :
  (length [scenario_record]
     = length (filter nonblank (split_go newline 0 (-1) scenario_payload))
   ∧ Forall2 (λ line r, parse_record LEEF_FILE_HEADER tab line = Ok r)
       (filter nonblank (split_go newline 0 (-1) scenario_payload)) [scenario_record])
  ∧ _parse LEEF_FILE_HEADER tab (newline +:+ "  " +:+ newline +:+ tab) = Ok [].
Proof.
  split.
  - apply (proj1 (C4_one_record_per_nonblank_line LEEF_FILE_HEADER tab scenario_payload
                    _ eq_refl) [scenario_record]).
    vm_compute. reflexivity.
  - apply (proj1 (proj2 (C4_one_record_per_nonblank_line LEEF_FILE_HEADER tab
                           (newline +:+ "  " +:+ newline +:+ tab) _ eq_refl))).
    apply (bool_decide_unpack _). by vm_compute.
Defined.

(** C5, as stated, fails: the line ["LEEF:x<TAB>foo"] has the body segment
    [foo], which has no [=], yet against a two-name schema the parse fails
    with [HeaderShapeMismatch], because the header of a line is parsed
    before its body. *)
Lemma C5_header_error_comes_first :
  let payload := "LEEF:x" +:+ tab +:+ "foo" in
  lines_of payload = [payload]
  ∧ body_fields tab payload = ["foo"]
  ∧ str_contains_char "foo" "=" = false
  ∧ _parse ["A"; "B"] tab payload = Raise (HeaderShapeMismatch ["x"])
  ∧ HeaderShapeMismatch ["x"] ≠ MalformedBodyField.
Proof. repeat split; by vm_compute. Qed.

(** C5, amended: if some retained line has a body segment without [=], the
    parse of the whole payload fails and returns no Record; the failure is
    [MalformedBodyField] when every earlier retained line parses and the
    header of that line parses (otherwise it is the earlier failure). *)
Theorem C5_malformed_body_field schema delimeter payload pre line post :
  delimeter ≠ EmptyString →
  lines_of payload = pre ++ line :: post →
  Exists (λ f, str_contains_char f "=" = false) (body_fields delimeter line) →
  is_Raise (_parse schema delimeter payload)
  ∧ (Forall (λ l, is_Ok (parse_record schema delimeter l)) pre →
     is_Ok (__parse schema (header_text delimeter line)) →
     _parse schema delimeter payload = Raise MalformedBodyField).
Proof.
  intros Hd Hlines Hex.
  destruct (parse_record_malformed schema delimeter line Hd Hex) as [Hraise Hhdr].
  split.
  - apply (_parse_line_fails _ _ _ line); [|done].
    rewrite Hlines. apply elem_of_app. right. by left.
  - intros Hpre Hok. rewrite _parse_unfold, Hlines.
    apply parse_records_Raise; [done|]. by apply Hhdr.
Qed.

Lemma C5_malformed_body_field_witness :
  let payload := "LEEF:x|y" +:+ tab +:+ "a=1" +:+ newline
                 +:+ "LEEF:z|w" +:+ tab +:+ "foo" +:+ tab +:+ "b=2" in
  is_Raise (_parse ["A"; "B"] tab payload)
  ∧ (Forall (λ l, is_Ok (parse_record ["A"; "B"] tab l)) ["LEEF:x|y" +:+ tab +:+ "a=1"] →
     is_Ok (__parse ["A"; "B"] (header_text tab ("LEEF:z|w" +:+ tab +:+ "foo" +:+ tab +:+ "b=2"))) →
     _parse ["A"; "B"] tab payload = Raise MalformedBodyField).
Proof.
  apply (C5_malformed_body_field ["A"; "B"] tab _ ["LEEF:x|y" +:+ tab +:+ "a=1"]
           ("LEEF:z|w" +:+ tab +:+ "foo" +:+ tab +:+ "b=2") []).
  - discriminate.
  - vm_compute. reflexivity.
  - vm_compute. apply Exists_cons_hd. reflexivity.
Defined.

(** C6: in a successfully parsed file, the header of every Record has exactly
    the names of the schema as its keys, and the name at position [i] of the
    schema is mapped to segment [i] of the line's header. *)
Theorem C6_header_keys_are_schema schema delimeter payload out :
  _parse schema delimeter payload = Ok out →
  Forall2 (λ line r,
    dom (content (header r)) = list_to_set schema
    ∧ ∀ i name, schema !! i = Some name →
        ∃ seg, items_of (header_text delimeter line) !! i = Some seg
             ∧ content (header r) !! name = Some seg)
    (lines_of payload) out.
Proof.
  intros Hout. apply _parse_Ok in Hout.
  eapply Forall2_impl; [exact Hout|]. intros line r Hr. simpl in Hr.
  apply parse_record_Ok_inv in Hr as (_ & _ & Hres & _).
  destruct (parse_Ok_inv _ _ _ Hres) as [Hlen Hnd].
  destruct (parse_Ok schema _ Hlen Hnd) as (res' & Hres' & Hdom & Hlook).
  assert (res' = content (header r)) as <- by congruence.
  split; [done|]. intros i name Hi.
  destruct (lookup_lt_is_Some_2 (items_of (header_text delimeter line)) i) as [seg Hseg].
  { rewrite Hlen. by eapply lookup_lt_Some. }
  exists seg. split; [done|]. by rewrite (Hlook i name Hi).
Qed.

Lemma C6_header_keys_are_schema_witness :
  Forall2 (λ line r,
    dom (content (header r)) = list_to_set LEEF_FILE_HEADER
    ∧ ∀ i name, LEEF_FILE_HEADER !! i = Some name →
        ∃ seg, items_of (header_text tab line) !! i = Some seg
             ∧ content (header r) !! name = Some seg)
    (lines_of scenario_payload) [scenario_record].
Proof.
  apply (C6_header_keys_are_schema LEEF_FILE_HEADER tab scenario_payload [scenario_record]).
  vm_compute. reflexivity.
Defined.

(** C7: a body segment [key=rest] whose [key] has no [=] is split at its
    first [=] only, into the pair [(key, rest)], however many [=] there are
    in [rest]; and the Record built from the line maps [key] to [rest] when
    no later segment of the line has the same key. *)
Theorem C7_split_on_first_equals schema delimeter payload out i line r key rest pre post :
  _parse schema delimeter payload = Ok out →
  lines_of payload !! i = Some line → out !! i = Some r →
  body_fields delimeter line = pre ++ (key +:+ "=" +:+ rest) :: post →
  str_contains_char key "=" = false →
  (str_split "=" 1 (key +:+ "=" +:+ rest) ≫= unpack2) = Ok (key, rest)
  ∧ (Forall (λ f, (field_pair f).1 ≠ key) post → body r !! key = Some rest).
Proof.
  intros Hout Hline Hr Hfields Hkey. split.
  - rewrite field_split.
    change (key +:+ "=" +:+ rest) with (key +:+ String "="%char rest).
    rewrite str_contains_char_app. simpl. rewrite orb_true_r.
    unfold field_pair. by rewrite str_before_app, str_after_app.
  - intros Hpost.
    pose proof (_parse_lookup _ _ _ _ _ _ _ Hout Hline Hr) as Hrec.
    apply parse_record_Ok_inv in Hrec as (_ & _ & _ & Hbody).
    apply parse_fields_Ok_inv in Hbody as [_ ->].
    rewrite foldl_insert_field_lookup, Hfields.
    by rewrite last_value_middle.
Qed.

Lemma C7_split_on_first_equals_witness :
  (str_split "=" 1 ("key" +:+ "=" +:+ "a=b") ≫= unpack2) = Ok ("key", "a=b")
  ∧ (Forall (λ f, (field_pair f).1 ≠ "key") ["x=1"] →
     body (mkRecord (mk ["V"] (<["V" := "1.0"]> ∅))
             (<["x" := "1"]> (<["key" := "a=b"]> ∅))) !! "key" = Some "a=b").
Proof.
  apply (C7_split_on_first_equals ["V"] tab
           ("LEEF:1.0" +:+ tab +:+ "key=a=b" +:+ tab +:+ "x=1")
           [mkRecord (mk ["V"] (<["V" := "1.0"]> ∅))
              (<["x" := "1"]> (<["key" := "a=b"]> ∅))]
           0%nat ("LEEF:1.0" +:+ tab +:+ "key=a=b" +:+ tab +:+ "x=1") _
           "key" "a=b" [] ["x=1"]).
  - vm_compute. reflexivity.
  - vm_compute. reflexivity.
  - reflexivity.
  - vm_compute. reflexivity.
  - reflexivity.
Defined.



Example duplicate_key_last_wins :
  last_value "k" (body_fields tab ("LEEF:1.0" +:+ tab +:+ "k=1" +:+ tab +:+ "k=2")) = Some "2".
Proof. by vm_compute. Qed.







Example trailing_delimiter_fails :
  is_Ok (_parse ["V"] tab ("LEEF:1.0" +:+ tab +:+ "a=1"))
  ∧ _parse ["V"] tab ("LEEF:1.0" +:+ tab +:+ "a=1" +:+ tab) = Raise MalformedBodyField.
Proof. split; [eexists|]; by vm_compute. Qed.

End FileClaims.

(** ** Further properties of the built-ins *)

Section SplitJoin.

Implicit Types (s t sep : string) (c d : ascii) (items : list string).

Lemma str_join_cons sep x items :
  items ≠ [] → str_join sep (x :: items) = x +:+ sep +:+ str_join sep items.
Proof. by destruct items. Qed.

Lemma str_join_push sep c w ws :
  str_join sep (String c w :: ws) = String c (str_join sep (w :: ws)).
Proof. by destruct ws. Qed.

Lemma str_startswith_drop sep s :
  str_startswith sep s = true →
  s = sep +:+ str_drop (String.length sep) s.
Proof.
  revert s. induction sep as [|a sep IH]; intros s Hs; [by destruct s|].
  destruct s as [|b s]; [done|]. simpl in Hs.
  destruct (decide (a = b)) as [->|]; [|done].
  rewrite str_app_cons. simpl. f_equal. by apply IH.
Qed.

Lemma str_startswith_app sep t : str_startswith sep (sep +:+ t) = true.
Proof.
  induction sep as [|a sep IH]; [by destruct t|].
  rewrite str_app_cons. simpl. by rewrite decide_True.
Qed.

Lemma split_go_join sep : sep ≠ EmptyString → ∀ s k m,
  str_join sep (split_go sep k m s) = str_drop k s.
Proof.
  intros Hsep. induction s as [|c s IH]; intros k m; [by destruct k|].
  destruct k as [|k]; [|apply IH].
  simpl. destruct (negb (m =? 0) && str_startswith sep (String c s)) eqn:Hcut.
  - apply andb_true_iff in Hcut as [_ Hstart].
    rewrite str_join_cons by apply split_go_nonempty.
    rewrite IH, str_app_empty_l.
    rewrite (str_startswith_drop _ _ Hstart) at 1.
    destruct sep as [|a sep]; [done|]. reflexivity.
  - pose proof (split_go_nonempty sep 0 m s) as Hne.
    specialize (IH 0%nat m).
    destruct (split_go sep 0 m s) as [|w ws]; [done|].
    rewrite str_join_push, IH. by destruct s.
Qed.

(** A string in which the separator does not occur is not cut. *)
Lemma split_go_absent sep m s :
  (∀ p q, s ≠ p +:+ sep +:+ q) → split_go sep 0 m s = [s].
Proof.
  induction s as [|c s IH]; intros Habs; [done|].
  simpl. destruct (str_startswith sep (String c s)) eqn:Hstart.
  - apply str_startswith_drop in Hstart.
    by destruct (Habs EmptyString (str_drop (String.length sep) (String c s))).
  - rewrite andb_false_r, IH; [done|].
    intros p q ->. by apply (Habs (String c p) q).
Qed.

Lemma split_char_no_sep d s : Forall (λ x, str_contains_char x d = false) (split_char d s).
Proof.
  induction s as [|c s IH]; [by repeat constructor|]. simpl.
  destruct (decide (d = c)) as [|Hne]; [by constructor|].
  pose proof (split_char_nonempty d s).
  destruct (split_char d s) as [|w ws]; [done|].
  apply Forall_cons in IH as [Hw Hws]. constructor; [|done].
  simpl. by rewrite decide_False.
Qed.

Lemma str_before_no_sep d s : str_contains_char (str_before d s) d = false.
Proof.
  induction s as [|c s IH]; [done|]. simpl.
  destruct (decide (d = c)); [done|]. simpl. by rewrite decide_False.
Qed.

(** X12: splitting a string on a non-empty separator, with any bound on the
    number of cuts, and joining the pieces with the separator gives the
    string back. *)
Theorem X12_join_split sep maxsplit s segs :
  str_split sep maxsplit s = Ok segs → str_join sep segs = s.
Proof.
  unfold str_split. destruct (decide (sep = EmptyString)) as [->|Hsep]; [done|].
  destruct sep as [|a sep']; [done|].
  intros [= <-]. by rewrite split_go_join.
Qed.

Lemma X12_join_split_witness :
  str_join "==" ["Xk"; "="] = "Xk===".
Proof.
  apply (X12_join_split "==" (-1) "Xk===" ["Xk"; "="]).
  reflexivity.
Defined.

End SplitJoin.

(** ** Further properties of the header parser *)

Section HeaderExtras.

Import LeefHeader.
Implicit Types (schema values items : list string) (raw : string).
Implicit Types (res : gmap string string).

Lemma str_app_assoc (s t u : string) : (s +:+ t) +:+ u = s +:+ t +:+ u.
Proof. induction s as [|c s IH]; [done|]. by rewrite !str_app_cons, IH. Qed.

Lemma parse_zip schema raw res :
  __parse schema raw = Ok res →
  res = list_to_map (zip schema (items_of raw)).
Proof.
  intros Hres. destruct (parse_Ok_inv _ _ _ Hres) as [Hlen Hnd].
  destruct (parse_Ok schema raw Hlen Hnd) as (res' & Hres' & Hdom & Hlook).
  assert (res' = res) as -> by congruence.
  assert ((zip schema (items_of raw)).*1 = schema) as Hfst by (apply fst_zip; lia).
  apply map_eq. intros name.
  destruct (decide (name ∈ schema)) as [Hin|Hnin].
  - apply list_elem_of_lookup_1 in Hin as [i Hi].
    destruct (lookup_lt_is_Some_2 (items_of raw) i) as [v Hv].
    { rewrite Hlen. by eapply lookup_lt_Some. }
    rewrite (Hlook i name Hi), Hv. symmetry.
    apply elem_of_list_to_map_1; [by rewrite Hfst|].
    apply list_elem_of_lookup_2 with i. by apply lookup_zip_Some.
  - transitivity (@None string).
    + apply not_elem_of_dom. by rewrite Hdom, elem_of_list_to_set.
    + symmetry. apply not_elem_of_list_to_map_1. by rewrite Hfst.
Qed.

(** X2: the constructor of a header either fails on the number of segments,
    or fails on a repeated name of the schema, or returns the dictionary
    that pairs the schema with the segments, position by position; it raises
    nothing else. *)
Theorem X2_header_closed_form raw schema :
  __init__ raw schema =
    if decide (length (items_of raw) = length schema)
    then if decide (NoDup schema)
         then Ok (mk schema (list_to_map (zip schema (items_of raw))))
         else Raise DuplicateSchemaField
    else Raise (HeaderShapeMismatch (items_of raw)).
Proof.
  unfold __init__. case_decide as Hlen; [case_decide as Hnd|].
  - destruct (parse_Ok schema raw Hlen Hnd) as (res & Hres & _).
    rewrite Hres, bind_Ok. by rewrite (parse_zip _ _ _ Hres).
  - by rewrite parse_unique.
  - by rewrite parse_shape.
Qed.

(** X5: no value of a parsed header is empty, and none contains a [|]. *)
Theorem X5_header_values raw schema h :
  __init__ raw schema = Ok h →
  ∀ name v, content h !! name = Some v →
    v ≠ EmptyString ∧ str_contains_char v "|" = false.
Proof.
  intros Hinit name v Hv. unfold __init__ in Hinit.
  apply bind_Ok_inv in Hinit as (res & Hres & [= <-]). simpl in Hv.
  destruct (parse_Ok_inv _ _ _ Hres) as [Hlen Hnd].
  destruct (parse_Ok schema raw Hlen Hnd) as (res' & Hres' & Hdom & Hlook).
  assert (res' = res) as -> by congruence.
  assert (name ∈ schema) as Hin.
  { apply (elem_of_list_to_set (C := gset string)). rewrite <- Hdom.
    apply elem_of_dom. by exists v. }
  apply list_elem_of_lookup_1 in Hin as [i Hi].
  rewrite (Hlook i name Hi) in Hv.
  apply list_elem_of_lookup_2 in Hv. rewrite items_of_char in Hv.
  apply list_elem_of_filter in Hv as [Hne Hsplit]. split.
  - by destruct v.
  - pose proof (split_char_no_sep "|" (str_strip "LEEF:" raw)) as Hall.
    rewrite Forall_forall in Hall. by apply Hall.
Qed.

Lemma X5_header_values_witness :
  "Incapsula" ≠ EmptyString ∧ str_contains_char "Incapsula" "|" = false.
Proof.
  refine (X5_header_values "LEEF:1.0||Incapsula|" ["Version"; "Vendor"]
            (mk ["Version"; "Vendor"]
               (<["Vendor" := "Incapsula"]> (<["Version" := "1.0"]> ∅)))
            _ "Vendor" "Incapsula" _).
  - vm_compute. reflexivity.
  - vm_compute. reflexivity.
Defined.

(** *** The marker *)

Lemma str_lstrip_marker_only chars (q : string) :
  str_forall (str_contains_char chars) q = true → str_lstrip chars q = EmptyString.
Proof.
  induction q as [|c q IH]; [done|]. simpl.
  intros [Hc Hq]%andb_true_iff. rewrite Hc. by apply IH.
Qed.

Lemma str_rstrip_marker_only chars (q : string) :
  str_forall (str_contains_char chars) q = true → str_rstrip chars q = EmptyString.
Proof.
  induction q as [|c q IH]; [done|].
  intros [Hc Hq]%andb_true_iff.
  change (str_rstrip chars (String c q)) with
    (match str_rstrip chars q with
     | EmptyString => if str_contains_char chars c then EmptyString else String c EmptyString
     | r => String c r
     end).
  by rewrite IH, Hc.
Qed.

Lemma str_rstrip_suffix chars (x q : string) :
  str_forall (str_contains_char chars) q = true →
  str_rstrip chars (x +:+ q) = str_rstrip chars x.
Proof.
  intros Hq. induction x as [|c x IH].
  - rewrite str_app_empty_l. by apply str_rstrip_marker_only.
  - rewrite str_app_cons.
    change (str_rstrip chars (String c (x +:+ q))) with
      (match str_rstrip chars (x +:+ q) with
       | EmptyString => if str_contains_char chars c then EmptyString else String c EmptyString
       | r => String c r
       end).
    by rewrite IH.
Qed.

Lemma str_strip_suffix chars (x q : string) :
  str_forall (str_contains_char chars) q = true →
  str_strip chars (x +:+ q) = str_strip chars x.
Proof.
  intros Hq. unfold str_strip. induction x as [|c x IH].
  - rewrite str_app_empty_l. by rewrite str_lstrip_marker_only.
  - rewrite str_app_cons. simpl.
    destruct (str_contains_char chars c); [done|].
    by rewrite <- str_app_cons, str_rstrip_suffix.
Qed.

Lemma str_strip_around chars (p x q : string) :
  str_forall (str_contains_char chars) p = true →
  str_forall (str_contains_char chars) q = true →
  str_strip chars (p +:+ x +:+ q) = str_strip chars x.
Proof.
  intros Hp Hq. rewrite <- (str_strip_suffix chars x q Hq).
  unfold str_strip. by rewrite str_lstrip_prefix.
Qed.

(** X6: characters of the marker [LEEF:] around a header, in any number and
    order, are ignored; in particular the marker itself is optional. *)
Theorem X6_marker_is_a_character_set p x q schema :
  marker_only p → marker_only q →
  __init__ (p +:+ x +:+ q) schema = __init__ x schema.
Proof.
  intros Hp Hq. unfold __init__, __parse, header_items.
  by rewrite str_strip_around.
Qed.

Lemma X6_marker_is_a_character_set_witness :
  __init__ ("FEEL::" +:+ "1.0|Incapsula" +:+ "EEE") ["Version"; "Vendor"]
  = __init__ "1.0|Incapsula" ["Version"; "Vendor"].
Proof.
  apply (X6_marker_is_a_character_set "FEEL::" "1.0|Incapsula" "EEE").
  - reflexivity.
  - reflexivity.
Defined.

(** X7: a header written as in the example of [main], with a [|] after every
    value, parses back to its values even when the last value ends with a
    character of the marker: the closing [|] shields it from the strip. *)
Theorem X7_piped_header_roundtrip schema values :
  NoDup schema →
  length values = length schema →
  Forall (λ v, v ≠ EmptyString ∧ str_contains_char v "|" = false) values →
  (∀ v c, head values = Some v → str_head v = Some c →
     str_contains_char "LEEF:" c = false) →
  ∃ res, __parse schema (build_header_piped values) = Ok res
    ∧ ∀ i name, schema !! i = Some name → res !! name = values !! i.
Proof.
  intros Hnd Hlen Hall Hhead.
  assert (Forall (λ v, v ≠ EmptyString) values) as Hne
    by (eapply Forall_impl; [exact Hall|]; by intros v [? _]).
  assert (items_of (build_header_piped values) = values) as Hitems.
  { rewrite items_of_char. unfold build_header_piped, build_header.
    rewrite str_app_assoc.
    rewrite str_strip_marker; [| done | |].
    - change (str_join "|" values +:+ "|")
        with (str_join "|" values +:+ String "|"%char EmptyString).
      rewrite split_char_app, filter_app.
      change (filter (λ x, str_bool x = true) (split_char "|" EmptyString)) with (@nil string).
      rewrite app_nil_r.
      destruct values as [|v0 values]; [done|].
      rewrite split_char_join; [| done |].
      + apply filter_all. eapply Forall_impl; [exact Hne|].
        intros v Hv. by destruct v.
      + eapply Forall_impl; [exact Hall|]. by intros v [_ ?].
    - intros c. destruct values as [|v0 values].
      + by intros [= <-].
      + rewrite str_head_app.
        * intros Hc. apply (Hhead v0 c); [done|].
          by rewrite <- (str_join_head (v0 :: values) v0).
        * apply Forall_cons in Hne as [Hv0 _].
          destruct values; [done|].
          change (str_join "|" (v0 :: s :: values))
            with (v0 +:+ "|" +:+ str_join "|" (s :: values)).
          by destruct v0.
    - intros c. rewrite str_last_app by done. by intros [= <-]. }
  destruct (parse_Ok schema (build_header_piped values)) as (res & Hres & _ & Hlook);
    [by rewrite Hitems | done |].
  exists res. split; [done|]. intros i name Hi.
  rewrite <- Hitems. by apply Hlook.
Qed.

Lemma X7_piped_header_roundtrip_witness :
  ∃ res, __parse ["Version"; "rule"] (build_header_piped ["1.0"; "NORMAL"]) = Ok res
    ∧ ∀ i name, ["Version"; "rule"] !! i = Some name →
        res !! name = ["1.0"; "NORMAL"] !! i.
Proof.
  apply (X7_piped_header_roundtrip ["Version"; "rule"] ["1.0"; "NORMAL"]).
  - apply (bool_decide_unpack _). by vm_compute.
  - reflexivity.
  - repeat constructor; done.
  - intros v c [= <-] [= <-]. reflexivity.
Defined.

End HeaderExtras.

(** ** Further properties of the file parser *)

Section FileExtras.

Import LeefFile.
Implicit Types (schema fields : list string) (delimeter payload line : string).
Implicit Types (out content : list Record) (r : Record) (body : gmap string string).

Lemma parse_records_acc schema delimeter records : ∀ content,
  parse_records schema delimeter records content =
    (rs ← parse_records schema delimeter records []; mret (content ++ rs)).
Proof.
  induction records as [|line records IH]; intros content; simpl.
  - by rewrite app_nil_r.
  - destruct (parse_record schema delimeter line) as [r|e]; [|done].
    rewrite !bind_Ok, (IH (content ++ [r])), (IH [r]).
    destruct (parse_records schema delimeter records []) as [rs|e]; [|done].
    simpl. by rewrite <- app_assoc.
Qed.

Lemma parse_records_app schema delimeter records1 records2 : ∀ content,
  parse_records schema delimeter (records1 ++ records2) content =
    (content' ← parse_records schema delimeter records1 content;
     parse_records schema delimeter records2 content').
Proof.
  induction records1 as [|line records1 IH]; intros content; simpl; [done|].
  destruct (parse_record schema delimeter line) as [r|e]; [|done].
  rewrite !bind_Ok. apply IH.
Qed.

Lemma lines_of_app payload1 payload2 :
  lines_of (payload1 +:+ newline +:+ payload2) = lines_of payload1 ++ lines_of payload2.
Proof.
  rewrite !lines_of_char.
  change (payload1 +:+ newline +:+ payload2) with (payload1 +:+ String "010"%char payload2).
  by rewrite split_char_app, filter_app.
Qed.

(** X1: lines are independent.  Parsing two payloads put one after the other
    with a newline between them gives the Records of the first followed by
    the Records of the second, and fails with the failure of the first if it
    fails, else with the failure of the second. *)
Theorem X1_parse_concatenation schema delimeter payload1 payload2 :
  _parse schema delimeter (payload1 +:+ newline +:+ payload2) =
    (out1 ← _parse schema delimeter payload1;
     out2 ← _parse schema delimeter payload2;
     mret (out1 ++ out2)).
Proof.
  rewrite !_parse_unfold, lines_of_app, parse_records_app.
  destruct (parse_records schema delimeter (lines_of payload1) []) as [out1|e]; [|done].
  rewrite !bind_Ok. apply parse_records_acc.
Qed.

Lemma parse_records_Raise_inv schema delimeter records e : ∀ content,
  parse_records schema delimeter records content = Raise e →
  ∃ pre line post, records = pre ++ line :: post
    ∧ Forall (λ l, is_Ok (parse_record schema delimeter l)) pre
    ∧ parse_record schema delimeter line = Raise e.
Proof.
  induction records as [|line records IH]; intros content Hraise; [done|].
  simpl in Hraise.
  destruct (parse_record schema delimeter line) as [r|e'] eqn:Hline.
  - rewrite bind_Ok in Hraise.
    destruct (IH _ Hraise) as (pre & l & post & -> & Hpre & Hl).
    exists (line :: pre), l, post. split; [done|]. split; [|done].
    constructor; [by exists r|done].
  - injection Hraise as ->. exists [], line, records. by repeat split.
Qed.

(** X4: the parse is fail-fast.  It fails with an exception exactly when
    some retained line raises that exception while every retained line
    before it builds a Record. *)
Theorem X4_first_failure schema delimeter payload e :
  _parse schema delimeter payload = Raise e ↔
  ∃ pre line post, lines_of payload = pre ++ line :: post
    ∧ Forall (λ l, is_Ok (parse_record schema delimeter l)) pre
    ∧ parse_record schema delimeter line = Raise e.
Proof.
  rewrite _parse_unfold. split.
  - apply parse_records_Raise_inv.
  - intros (pre & line & post & -> & Hpre & Hline).
    by apply parse_records_Raise.
Qed.

Lemma parse_record_Raise_inv schema delimeter line e :
  parse_record schema delimeter line = Raise e →
  (delimeter = EmptyString ∧ e = ValueError "empty separator")
  ∨ (∃ items, length items ≠ length schema ∧ e = HeaderShapeMismatch items)
  ∨ (¬ NoDup schema ∧ e = DuplicateSchemaField)
  ∨ e = MalformedBodyField.
Proof.
  destruct (decide (delimeter = EmptyString)) as [->|Hd].
  { intros [= <-]. by left. }
  rewrite parse_record_unfold by done. intros Hraise. right.
  destruct (decide (length (items_of (header_text delimeter line)) = length schema))
    as [Hlen|Hlen]; [destruct (decide (NoDup schema)) as [Hnd|Hnd]|].
  - destruct (parse_Ok schema _ Hlen Hnd) as (res & Hres & _).
    rewrite Hres, bind_Ok in Hraise.
    destruct (parse_fields (body_fields delimeter line) ∅) as [b|e'] eqn:Hfields; [done|].
    injection Hraise as <-. right. right.
    destruct (decide (Forall (λ f, str_contains_char f "=" = true)
                        (body_fields delimeter line))) as [Hall|Hex].
    + by rewrite parse_fields_Ok in Hfields.
    + apply not_Forall_Exists in Hex; [|apply _].
      rewrite parse_fields_Raise in Hfields; [by injection Hfields as <-|].
      eapply Exists_impl; [exact Hex|]. intros f Hf. simpl in Hf.
      by destruct (str_contains_char f "=").
  - rewrite parse_unique in Hraise by done. injection Hraise as <-.
    right. by left.
  - rewrite parse_shape in Hraise by done. injection Hraise as <-.
    left. by eexists.
Qed.

(** X3: the only exceptions that leave the parser are the [ValueError] of an
    empty delimiter, the two [WrongHeaderStructure] failures and the
    [ValueError] of a body field without [=]; [pop(0)], the index into the
    schema and the unpacking of more than two values never fail. *)
Theorem X3_parse_exceptions schema delimeter payload e :
  _parse schema delimeter payload = Raise e →
  (delimeter = EmptyString ∧ e = ValueError "empty separator")
  ∨ (∃ items, length items ≠ length schema ∧ e = HeaderShapeMismatch items)
  ∨ (¬ NoDup schema ∧ e = DuplicateSchemaField)
  ∨ e = MalformedBodyField.
Proof.
  intros Hraise. rewrite _parse_unfold in Hraise.
  apply parse_records_Raise_inv in Hraise as (pre & line & post & _ & _ & Hline).
  by apply parse_record_Raise_inv in Hline.
Qed.

Lemma X3_parse_exceptions_witness :
  (tab = EmptyString ∧ HeaderShapeMismatch ["x"] = ValueError "empty separator")
  ∨ (∃ items, length items ≠ length ["A"; "B"]
              ∧ HeaderShapeMismatch ["x"] = HeaderShapeMismatch items)
  ∨ (¬ NoDup ["A"; "B"] ∧ HeaderShapeMismatch ["x"] = DuplicateSchemaField)
  ∨ HeaderShapeMismatch ["x"] = MalformedBodyField.
Proof.
  apply (X3_parse_exceptions ["A"; "B"] tab ("LEEF:x" +:+ tab +:+ "foo")).
  vm_compute. reflexivity.
Defined.

Lemma dom_foldl_insert_field fields : ∀ body,
  dom (foldl insert_field body fields) = dom body ∪ list_to_set (field_name <$> fields).
Proof.
  induction fields as [|f fields IH]; intros body; simpl; [set_solver|].
  rewrite IH. unfold insert_field. rewrite dom_insert_L.
  unfold field_name. set_solver.
Qed.

(** X8: the keys of the body of a Record are exactly the texts before the
    first [=] of the body fields of its line, so no key contains a [=]. *)
Theorem X8_body_keys schema delimeter line r :
  parse_record schema delimeter line = Ok r →
  dom (body r) = list_to_set (field_name <$> body_fields delimeter line)
  ∧ ∀ key, key ∈ dom (body r) → str_contains_char key "=" = false.
Proof.
  intros Hr. apply parse_record_Ok_inv in Hr as (_ & _ & _ & Hbody).
  apply parse_fields_Ok_inv in Hbody as [_ ->].
  rewrite dom_foldl_insert_field, dom_empty_L, !union_empty_l_L.
  split; [done|]. intros key Hkey.
  apply elem_of_list_to_set, list_elem_of_fmap in Hkey as (f & -> & _).
  apply str_before_no_sep.
Qed.

Lemma X8_body_keys_witness :
  let line := "LEEF:1.0|Vendor|Product|1.0|ruleA" +:+ tab +:+ "src=10.0.0.1"
              +:+ tab +:+ "dst=10.0.0.2=x" in
  let r := mkRecord (header scenario_record)
             (<["dst" := "10.0.0.2=x"]> (<["src" := "10.0.0.1"]> ∅)) in
  dom (body r) = list_to_set (field_name <$> body_fields tab line)
  ∧ ∀ key, key ∈ dom (body r) → str_contains_char key "=" = false.
Proof.
  intros line r. apply (X8_body_keys LEEF_FILE_HEADER tab line r).
  vm_compute. reflexivity.
Defined.

Lemma field_pair_build (pair : string * string) :
  str_contains_char pair.1 "=" = false → field_pair (build_field pair) = pair.
Proof.
  destruct pair as [k v]. simpl. intros Hk. unfold field_pair, build_field. simpl.
  change (k +:+ "=" +:+ v) with (k +:+ String "="%char v).
  by rewrite str_before_app, str_after_app.
Qed.

Lemma build_field_has_equals (pair : string * string) :
  str_contains_char (build_field pair) "=" = true.
Proof.
  unfold build_field.
  change (pair.1 +:+ "=" +:+ pair.2) with (pair.1 +:+ String "="%char pair.2).
  rewrite str_contains_char_app. simpl. by rewrite orb_true_r.
Qed.

(** X9: with a one-character delimiter other than [=], a line written as a
    header text and [key=value] fields joined by the delimiter, none of them
    containing the delimiter nor any key a [=], parses to the Record of that
    header whose body maps every key to the value of its last pair. *)
Theorem X9_line_roundtrip schema (d : ascii) hdr res (pairs : list (string * string)) :
  LeefHeader.__parse schema hdr = Ok res →
  str_contains_char hdr d = false →
  d ≠ "="%char →
  Forall (λ p, str_contains_char p.1 d = false ∧ str_contains_char p.2 d = false
               ∧ str_contains_char p.1 "=" = false) pairs →
  ∃ r, parse_record schema (String d EmptyString)
         (build_line (String d EmptyString) hdr (build_field <$> pairs)) = Ok r
    ∧ header r = LeefHeader.mk schema res
    ∧ ∀ key, body r !! key = snd <$> last (filter (λ p, p.1 = key) pairs).
Proof.
  intros Hres Hhdr Hd Hpairs.
  set (delimeter := String d EmptyString).
  set (line := build_line delimeter hdr (build_field <$> pairs)).
  assert (segments delimeter line = hdr :: (build_field <$> pairs)) as Hsegs.
  { unfold delimeter, line, build_line. rewrite segments_char.
    apply split_char_join; [done|]. constructor; [done|].
    apply Forall_fmap. eapply Forall_impl; [exact Hpairs|].
    intros [k v] (Hk & Hv & _). simpl in *. unfold build_field. simpl.
    change (k +:+ "=" +:+ v) with (k +:+ String "="%char v).
    rewrite str_contains_char_app, Hk. simpl.
    by rewrite decide_False. }
  assert (field_pair <$> (build_field <$> pairs) = pairs) as Hback.
  { clear Hsegs. induction Hpairs as [|p pairs (_ & _ & Hp) _ IH]; [done|].
    rewrite !fmap_cons. by rewrite field_pair_build, IH. }
  exists (mkRecord (LeefHeader.mk schema res)
            (foldl insert_field ∅ (build_field <$> pairs))).
  split; [|split; [done|]].
  - rewrite parse_record_unfold by done.
    unfold header_text, body_fields. rewrite Hsegs. simpl.
    rewrite Hres, bind_Ok, parse_fields_Ok; [done|].
    apply Forall_fmap, Forall_forall. intros p _. apply build_field_has_equals.
  - intros key. cbn [body]. rewrite foldl_insert_field_lookup, lookup_empty.
    unfold last_value. rewrite Hback.
    by destruct (last (filter (λ p, p.1 = key) pairs)).
Qed.

Lemma X9_line_roundtrip_witness :
  ∃ r, parse_record ["V"] tab
         (build_line tab "LEEF:1.0" (build_field <$> [("k", "1"); ("u", "a=b"); ("k", "2")]))
       = Ok r
    ∧ header r = LeefHeader.mk ["V"] (<["V" := "1.0"]> ∅)
    ∧ ∀ key, body r !! key
        = snd <$> last (filter (λ p, p.1 = key) [("k", "1"); ("u", "a=b"); ("k", "2")]).
Proof.
  apply (X9_line_roundtrip ["V"] "009"%char "LEEF:1.0" (<["V" := "1.0"]> ∅)
           [("k", "1"); ("u", "a=b"); ("k", "2")]).
  - vm_compute. reflexivity.
  - reflexivity.
  - discriminate.
  - repeat constructor.
Defined.

Lemma str_occurs_app sep p q : str_occurs sep (p +:+ sep +:+ q) = true.
Proof.
  induction p as [|c p IH].
  - rewrite str_app_empty_l.
    destruct (sep +:+ q) eqn:E; simpl; rewrite <- E, str_startswith_app; done.
  - rewrite str_app_cons. simpl. rewrite IH. apply orb_true_r.
Qed.

(** X10: a retained line in which the delimiter does not occur is all header:
    it builds the Record of that header with an empty body, or fails as the
    header does. *)
Theorem X10_line_without_delimiter schema delimeter line :
  delimeter ≠ EmptyString →
  str_occurs delimeter line = false →
  parse_record schema delimeter line =
    (h ← LeefHeader.__init__ line schema; mret (mkRecord h ∅)).
Proof.
  intros Hd Habs. rewrite parse_record_unfold by done.
  unfold header_text, body_fields, segments.
  rewrite split_go_absent.
  - simpl. unfold LeefHeader.__init__.
    by destruct (LeefHeader.__parse schema line).
  - intros p q ->. by rewrite str_occurs_app in Habs.
Qed.

Lemma X10_line_without_delimiter_witness :
  parse_record ["V"] tab "LEEF:1.0" =
    (h ← LeefHeader.__init__ "LEEF:1.0" ["V"]; mret (mkRecord h ∅)).
Proof.
  apply (X10_line_without_delimiter ["V"] tab "LEEF:1.0").
  - discriminate.
  - reflexivity.
Defined.

Lemma parse_record_is_Ok schema delimeter line :
  is_Ok (parse_record schema delimeter line) ↔
  delimeter ≠ EmptyString ∧ NoDup schema
  ∧ length (items_of (header_text delimeter line)) = length schema
  ∧ Forall (λ f, str_contains_char f "=" = true) (body_fields delimeter line).
Proof.
  split.
  - intros [r Hr]. apply parse_record_Ok_inv in Hr as (Hd & _ & Hres & Hbody).
    apply parse_Ok_inv in Hres as [Hlen Hnd].
    by apply parse_fields_Ok_inv in Hbody as [Hall _].
  - intros (Hd & Hnd & Hlen & Hall).
    destruct (parse_Ok schema _ Hlen Hnd) as (res & Hres & _).
    rewrite parse_record_unfold by done.
    rewrite Hres, bind_Ok, parse_fields_Ok by done. by eexists.
Qed.

Lemma Forall2_of_is_Ok {A B} (f : A → result B) (l : list A) :
  Forall (λ x, is_Ok (f x)) l → ∃ k, Forall2 (λ x y, f x = Ok y) l k.
Proof.
  induction 1 as [|x l [y Hy] _ [k Hk]]; [by exists []|].
  exists (y :: k). by constructor.
Qed.

(** X13: a payload parses exactly when every retained line is well formed:
    the delimiter is not empty, the schema repeats no name, the header of
    the line has as many non-empty segments as the schema has names, and
    every body field of the line contains a [=]. *)
Theorem X13_parse_succeeds_iff schema delimeter payload :
  is_Ok (_parse schema delimeter payload) ↔
  Forall (λ line,
    delimeter ≠ EmptyString ∧ NoDup schema
    ∧ length (items_of (header_text delimeter line)) = length schema
    ∧ Forall (λ f, str_contains_char f "=" = true) (body_fields delimeter line))
    (lines_of payload).
Proof.
  split.
  - intros [out Hout]. apply _parse_Ok in Hout.
    apply Forall_forall. intros line Hline.
    apply parse_record_is_Ok.
    apply list_elem_of_lookup_1 in Hline as [i Hi].
    destruct (Forall2_lookup_l _ _ _ _ _ Hout Hi) as (r & _ & Hr). by exists r.
  - intros Hall.
    destruct (Forall2_of_is_Ok (parse_record schema delimeter) (lines_of payload)) as [out Hout].
    { eapply Forall_impl; [exact Hall|]. intros line Hline. by apply parse_record_is_Ok. }
    exists out. by apply _parse_Ok.
Qed.

End FileExtras.

(** ** Properties of the file object *)

Section FileObject.

Import LeefFileInstance.
Implicit Types (self : t) (out : list Record).

Lemma consume_from self fuel : ∀ i,
  (i ≤ length (__records self))%nat →
  consume fuel (mkgen self i) =
    (take fuel (drop i (__records self)),
     bool_decide (length (__records self) < i + fuel)%nat).
Proof.
  induction fuel as [|fuel IH]; intros i Hi.
  - simpl. f_equal. symmetry. apply bool_decide_eq_false. lia.
  - simpl. unfold __next__. simpl.
    destruct (__records self !! i) as [record|] eqn:Hrec.
    + pose proof (lookup_lt_Some _ _ _ Hrec) as Hlt.
      rewrite IH by lia. rewrite (drop_S _ _ _ Hrec). simpl.
      f_equal. apply bool_decide_ext. lia.
    + apply lookup_ge_None in Hrec.
      rewrite drop_ge by done. simpl. f_equal. symmetry.
      apply bool_decide_eq_true. lia.
Qed.

(** X11: a file object is built exactly when the payload parses; its
    [get_content] is the tuple of Records, a generator obtained from
    [records] yields those Records in order and then stops (so more calls of
    [next] than there are Records collect them all), and an exhausted
    generator keeps raising [StopIteration]. *)
Theorem X11_file_object payload schema delimeter out :
  LeefFile._parse schema delimeter payload = Ok out →
  ∃ self, __init__ payload schema delimeter = Ok self
    ∧ get_content self = out
    ∧ (∀ fuel, consume fuel (records self)
               = (take fuel out, bool_decide (length out < fuel)%nat))
    ∧ (∀ i, (length out ≤ i)%nat →
            __next__ (mkgen self i) = (StopIteration, mkgen self i)).
Proof.
  intros Hout. exists (mk delimeter schema out).
  unfold __init__. rewrite Hout. split; [done|]. split; [done|]. split.
  - intros fuel. unfold records. rewrite consume_from by (simpl; lia).
    by rewrite drop_0.
  - intros i Hi. unfold __next__. simpl.
    by rewrite (proj2 (lookup_ge_None out i) Hi).
Qed.

Lemma X11_file_object_witness :
  ∃ self, __init__ scenario_payload LEEF_FILE_HEADER tab = Ok self
    ∧ get_content self = [scenario_record]
    ∧ (∀ fuel, consume fuel (records self)
               = (take fuel [scenario_record],
                  bool_decide (length [scenario_record] < fuel)%nat))
    ∧ (∀ i, (length [scenario_record] ≤ i)%nat →
            __next__ (mkgen self i) = (StopIteration, mkgen self i)).
Proof.
  apply (X11_file_object scenario_payload LEEF_FILE_HEADER tab [scenario_record]).
  vm_compute. reflexivity.
Defined.

End FileObject.
